(** * Vault records of ydaemon: naming, enrichment and the per-chain index

    A shallow embedding of [internal/vaults/model.go] and the properties of
    its naming normaliser ([BuildNames], [BuildSymbol]), its enrichment
    merger ([BuildMigration], [BuildAPY]) and its in-memory index
    ([ListVaults], [ListVaultsAddresses], [FindVault]). *)

From Stdlib Require Import String Ascii List Bool Arith NArith ZArith Lia.
From stdpp Require Import gmap strings list fin_maps.

Local Open Scope string_scope.

(** ** Go strings

    A Go [string] is a sequence of bytes; [String.string] is a sequence of
    8-bit [ascii] values, so the two coincide. *)

(** The byte 0x22, the double quote. *)
Definition dquote : ascii := ascii_of_nat 34.

(** [strings.Replace(s, old, new, -1)] for a one-byte [old]: every
    occurrence of the byte is replaced (occurrences of a single byte never
    overlap, and a negative count means no limit). *)
Fixpoint strings_Replace (s : string) (old : ascii) (new : string) : string :=
  match s with
  | EmptyString => EmptyString
  | String c rest =>
      if Ascii.eqb c old
      then new +:+ strings_Replace rest old new
      else String c (strings_Replace rest old new)
  end.

(** [len(s) >= len(prefix) && s[0:len(prefix)] == prefix] *)
Definition strings_HasPrefix (s prefix : string) : bool :=
  (String.length prefix <=? String.length s)%nat
  && String.eqb (substring 0 (String.length prefix) s) prefix.

(** [len(s) >= len(suffix) && s[len(s)-len(suffix):] == suffix] *)
Definition strings_HasSuffix (s suffix : string) : bool :=
  (String.length suffix <=? String.length s)%nat
  && String.eqb
       (substring (String.length s - String.length suffix)
          (String.length suffix) s)
       suffix.

(** The source's test that [s] is not the empty string. *)
Definition nonempty (s : string) : bool := negb (String.eqb s EmptyString).

(** Modelled from the spec: [helpers.SafeString] (package [common/helpers],
    not part of this file) is the first-non-empty-wins choice of section 4.2:
    the value itself unless it is empty, the fallback otherwise. *)
Definition helpers_SafeString (value defaultValue : string) : string :=
  if nonempty value then value else defaultValue.

(** ** Numeric and address types *)

(** [uint64], used here only as a key and as stored facts. *)
Definition uint64 := N.

(** [float64] and [float32] values are only stored and copied by this file;
    they are represented by their IEEE-754 bit patterns, the zero value
    (+0.0) being the all-zero pattern. *)
Definition float64 := N.
Definition float32 := N.

(** [bigNumber.Int], an arbitrary-precision integer. *)
Definition bigNumber_Int := Z.

(** [ethcommon.Address] is a 20-byte array, read here as the big-endian
    number it spells; the zero value is the all-zero address. *)
Definition ethcommon_Address := N.

(** Modelled from the spec: [common.Address] (package [common/types/common],
    not part of this file) is the project's wrapper around
    [ethcommon.Address]; [common.FromAddress] wraps and [ToAddress] unwraps,
    so the two kinds of address identify the same contract. *)
Record common_Address := FromAddress { ToAddress : ethcommon_Address }.

Definition zero_Address : common_Address := FromAddress 0%N.

#[global] Instance common_Address_eq_dec : EqDecision common_Address.
Proof. solve_decision. Defined.

#[global] Instance common_Address_countable : Countable common_Address.
Proof.
  apply (inj_countable' ToAddress FromAddress).
  intros []; reflexivity.
Defined.

(** ** The data model *)

(** TTVL holds the info about the value locked in a vault.  The two
    [*bigNumber.Int] fields are pointers and may be nil. *)
Module TTVL.
Record t := mk {
  TotalAssets : option bigNumber_Int;
  TotalDelegatedAssets : option bigNumber_Int;
  TVLDeposited : float64;
  TVLDelegated : float64;
  TVL : float64;
  Price : float64
}.
End TTVL.

(** TAPYFees holds the fees information about this vault. *)
Module TAPYFees.
Record t := mk {
  Performance : float64;
  Withdrawal : float64;
  Management : float64;
  KeepCRV : float64;
  CvxKeepCRV : float64
}.
Definition zero : t := (mk 0 0 0 0 0)%N.
End TAPYFees.

(** TAPYPoints holds the points information about this vault. *)
Module TAPYPoints.
Record t := mk {
  WeekAgo : float64;
  MonthAgo : float64;
  Inception : float64
}.
Definition zero : t := (mk 0 0 0)%N.
End TAPYPoints.

(** TAPYComposite holds the composite breakdown of this vault. *)
Module TAPYComposite.
Record t := mk {
  Boost : float64;
  PoolAPY : float64;
  BoostedAPR : float64;
  BaseAPR : float64;
  CvxAPR : float64;
  RewardsAPR : float64
}.
Definition zero : t := (mk 0 0 0 0 0 0)%N.
End TAPYComposite.

(** TAPY contains all the information useful about the APY, APR, fees and
    breakdown.  The Go field [Type] is spelled [Type_] here. *)
Module TAPY.
Record t := mk {
  Type_ : string;
  GrossAPR : float64;
  NetAPY : float64;
  Fees : TAPYFees.t;
  Points : TAPYPoints.t;
  Composite : TAPYComposite.t
}.
(** The zero value [TAPY{}]. *)
Definition zero : t :=
  mk EmptyString 0%N 0%N TAPYFees.zero TAPYPoints.zero TAPYComposite.zero.
End TAPY.

(** TMigration helps us to know if a vault is in the process of being
    migrated. *)
Module TMigration.
Record t := mk {
  Available : bool;
  Address : common_Address
}.
(** The zero value [TMigration{}]. *)
Definition zero : t := mk false zero_Address.
End TMigration.

(** TVaultDetails holds some extra information about the vault. *)
Module TVaultDetails.
Record t := mk {
  Management : common_Address;
  Governance : common_Address;
  Guardian : common_Address;
  Rewards : common_Address;
  DepositLimit : option bigNumber_Int;
  AvailableDepositLimit : option bigNumber_Int;
  Comment : string;
  APYTypeOverride : string;
  APYOverride : float64;
  Order : float32;
  PerformanceFee : uint64;
  ManagementFee : uint64;
  DepositsDisabled : bool;
  WithdrawalsDisabled : bool;
  AllowZapIn : bool;
  AllowZapOut : bool;
  Retired : bool
}.
End TVaultDetails.

(** Modelled from the spec: [tokens.TERC20Token] (package [internal/tokens],
    not part of this file) is the attached token descriptor; the two fields
    this file reads are its name and its symbol. *)
Module TERC20Token.
Record t := mk {
  Name : string;
  Symbol : string
}.
End TERC20Token.

(** TVault is the main structure returned by the API.  The strategy
    descriptor [strategies.TStrategy] lives in another package and is opaque
    to this file: it is the type parameter.  The Go field [Type] is spelled
    [Type_]; [Details] is a pointer and may be nil. *)
Module TVault.
Record t {TStrategy : Type} := mk {
  Address : ethcommon_Address;
  Registry : ethcommon_Address;
  Symbol : string;
  DisplaySymbol : string;
  FormatedSymbol : string;
  Name : string;
  DisplayName : string;
  FormatedName : string;
  Icon : string;
  Version : string;
  Type_ : string;
  Inception : uint64;
  Decimals : uint64;
  Endorsed : bool;
  Emergency_shutdown : bool;
  PricePerShare : bigNumber_Int;
  Token : TERC20Token.t;
  TVL : TTVL.t;
  APY : TAPY.t;
  Strategies : list TStrategy;
  Migration : TMigration.t;
  Details : option TVaultDetails.t
}.
Arguments t : clear implicits.
Arguments mk {TStrategy}.
End TVault.

(** Modelled from the spec: the entries of the curated-metadata store
    ([meta.Store.VaultsFromMeta], package [external/meta]) carry, as far as
    this file reads them, a migration flag and a migration target. *)
Module TVaultFromMeta.
Record t := mk {
  MigrationAvailable : bool;
  MigrationTargetVault : common_Address
}.
End TVaultFromMeta.

(** Modelled from the spec: the entries of the analytics store
    ([store.Store.AggregatedVault], package [common/store]) carry a
    [LegacyAPY] of the shape of the APY snapshot. *)
Module TAggregatedVault.
Record t := mk {
  LegacyAPY : TAPY.t
}.
End TAggregatedVault.

(** ** The naming normaliser *)

Section Vaults.
Context {TStrategy : Type}.
Local Abbreviation TVault := (TVault.t TStrategy).

(** The write-back [t.Name = ..; t.DisplayName = ..; t.FormatedName = ..]. *)
Definition set_names (t : TVault) (name displayName formatedName : string)
  : TVault :=
  TVault.mk (TVault.Address t) (TVault.Registry t)
    (TVault.Symbol t) (TVault.DisplaySymbol t) (TVault.FormatedSymbol t)
    name displayName formatedName
    (TVault.Icon t) (TVault.Version t) (TVault.Type_ t)
    (TVault.Inception t) (TVault.Decimals t)
    (TVault.Endorsed t) (TVault.Emergency_shutdown t)
    (TVault.PricePerShare t) (TVault.Token t) (TVault.TVL t) (TVault.APY t)
    (TVault.Strategies t) (TVault.Migration t) (TVault.Details t).

(** The write-back [t.Symbol = ..; t.DisplaySymbol = ..;
    t.FormatedSymbol = ..]. *)
Definition set_symbols (t : TVault)
    (symbol displaySymbol formatedSymbol : string) : TVault :=
  TVault.mk (TVault.Address t) (TVault.Registry t)
    symbol displaySymbol formatedSymbol
    (TVault.Name t) (TVault.DisplayName t) (TVault.FormatedName t)
    (TVault.Icon t) (TVault.Version t) (TVault.Type_ t)
    (TVault.Inception t) (TVault.Decimals t)
    (TVault.Endorsed t) (TVault.Emergency_shutdown t)
    (TVault.PricePerShare t) (TVault.Token t) (TVault.TVL t) (TVault.APY t)
    (TVault.Strategies t) (TVault.Migration t) (TVault.Details t).

(** [func (t *TVault) BuildNames(metaVaultName string)]: the receiver is
    updated in place; here the updated record is returned. *)
Definition BuildNames (metaVaultName : string) (t : TVault) : TVault :=
  let name := strings_Replace (TVault.Name t) dquote EmptyString in
  let displayName := TVault.Name t in
  let formatedName := TERC20Token.Name (TVault.Token t) in
  (* If the meta file has a display name, use it *)
  let displayName :=
    if nonempty metaVaultName then metaVaultName else displayName in
  (* If the formated name is missing yVault suffix, add it *)
  let formatedName :=
    if negb (strings_HasSuffix formatedName "yVault")
    then formatedName +:+ " yVault" else formatedName in
  (* If a display name exist, use it for the formating. *)
  let formatedName :=
    if nonempty displayName && negb (strings_HasSuffix displayName "yVault")
    then displayName +:+ " yVault" else formatedName in
  (* If the name is empty, use the displayName instead *)
  let name := if String.eqb name EmptyString then displayName else name in
  (* If the name is still empty, use the formated name instead *)
  let name := if String.eqb name EmptyString then formatedName else name in
  set_names t name displayName formatedName.

(** [func (t *TVault) BuildSymbol(metaVaultSymbol string)] *)
Definition BuildSymbol (metaVaultSymbol : string) (t : TVault) : TVault :=
  let symbol := strings_Replace (TVault.Symbol t) dquote EmptyString in
  let formatedSymbol := TERC20Token.Symbol (TVault.Token t) in
  let displaySymbol := metaVaultSymbol in
  (* If the formated symbol is missing yv prefix, add it *)
  let formatedSymbol :=
    if negb (strings_HasPrefix formatedSymbol "yv")
    then "yv" +:+ formatedSymbol else formatedSymbol in
  (* If a display name exist, use it for the formating. *)
  let formatedSymbol :=
    if nonempty displaySymbol && negb (strings_HasPrefix displaySymbol "yv")
    then "yv" +:+ displaySymbol else formatedSymbol in
  let symbol := helpers_SafeString symbol displaySymbol in
  let symbol := helpers_SafeString symbol formatedSymbol in
  let displaySymbol := helpers_SafeString displaySymbol symbol in
  set_symbols t symbol displaySymbol formatedSymbol.

(** ** The enrichment merger *)

(** A Go map of maps read as [m[chainID][address]]: a missing outer key
    yields the nil inner map, which has no entry at all. *)
Definition chain_of {K V : Type} `{Countable K}
    (m : gmap uint64 (gmap K V)) (chainID : uint64) : gmap K V :=
  default ∅ (m !! chainID).

(** The write [t.Migration = migration]. *)
Definition set_Migration (t : TVault) (migration : TMigration.t) : TVault :=
  TVault.mk (TVault.Address t) (TVault.Registry t)
    (TVault.Symbol t) (TVault.DisplaySymbol t) (TVault.FormatedSymbol t)
    (TVault.Name t) (TVault.DisplayName t) (TVault.FormatedName t)
    (TVault.Icon t) (TVault.Version t) (TVault.Type_ t)
    (TVault.Inception t) (TVault.Decimals t)
    (TVault.Endorsed t) (TVault.Emergency_shutdown t)
    (TVault.PricePerShare t) (TVault.Token t) (TVault.TVL t) (TVault.APY t)
    (TVault.Strategies t) migration (TVault.Details t).

(** The write [t.APY = apy]. *)
Definition set_APY (t : TVault) (apy : TAPY.t) : TVault :=
  TVault.mk (TVault.Address t) (TVault.Registry t)
    (TVault.Symbol t) (TVault.DisplaySymbol t) (TVault.FormatedSymbol t)
    (TVault.Name t) (TVault.DisplayName t) (TVault.FormatedName t)
    (TVault.Icon t) (TVault.Version t) (TVault.Type_ t)
    (TVault.Inception t) (TVault.Decimals t)
    (TVault.Endorsed t) (TVault.Emergency_shutdown t)
    (TVault.PricePerShare t) (TVault.Token t) (TVault.TVL t) apy
    (TVault.Strategies t) (TVault.Migration t) (TVault.Details t).

(** [func (t *TVault) BuildMigration(chainID uint64)]; the global
    [meta.Store.VaultsFromMeta] it reads is the first argument. *)
Definition BuildMigration
    (VaultsFromMeta : gmap uint64 (gmap common_Address TVaultFromMeta.t))
    (chainID : uint64) (t : TVault) : TVault :=
  let migration := TMigration.zero in
  let migration :=
    match chain_of VaultsFromMeta chainID !! FromAddress (TVault.Address t) with
    | Some vaultFromMeta =>
        let migrationAddress := FromAddress (TVault.Address t) in
        let migrationAvailable :=
          TVaultFromMeta.MigrationAvailable vaultFromMeta in
        let migrationAddress :=
          if TVaultFromMeta.MigrationAvailable vaultFromMeta
          then TVaultFromMeta.MigrationTargetVault vaultFromMeta
          else migrationAddress in
        TMigration.mk migrationAvailable migrationAddress
    | None => migration
    end in
  set_Migration t migration.

(** [func (t *TVault) BuildAPY(chainID uint64)]; the global
    [store.Store.AggregatedVault] it reads is the first argument. *)
Definition BuildAPY
    (AggregatedVault : gmap uint64 (gmap common_Address TAggregatedVault.t))
    (chainID : uint64) (t : TVault) : TVault :=
  let apy := TAPY.zero in
  let apy :=
    match chain_of AggregatedVault chainID !! FromAddress (TVault.Address t) with
    | Some aggregatedVault =>
        let legacy := TAggregatedVault.LegacyAPY aggregatedVault in
        {| TAPY.Type_ := TAPY.Type_ legacy;
           TAPY.GrossAPR := TAPY.GrossAPR legacy;
           TAPY.NetAPY := TAPY.NetAPY legacy;
           TAPY.Points :=
             {| TAPYPoints.WeekAgo := TAPYPoints.WeekAgo (TAPY.Points legacy);
                TAPYPoints.MonthAgo := TAPYPoints.MonthAgo (TAPY.Points legacy);
                TAPYPoints.Inception :=
                  TAPYPoints.Inception (TAPY.Points legacy) |};
           TAPY.Composite :=
             {| TAPYComposite.Boost :=
                  TAPYComposite.Boost (TAPY.Composite legacy);
                TAPYComposite.PoolAPY :=
                  TAPYComposite.PoolAPY (TAPY.Composite legacy);
                TAPYComposite.BoostedAPR :=
                  TAPYComposite.BoostedAPR (TAPY.Composite legacy);
                TAPYComposite.BaseAPR :=
                  TAPYComposite.BaseAPR (TAPY.Composite legacy);
                TAPYComposite.CvxAPR :=
                  TAPYComposite.CvxAPR (TAPY.Composite legacy);
                TAPYComposite.RewardsAPR :=
                  TAPYComposite.RewardsAPR (TAPY.Composite legacy) |};
           TAPY.Fees :=
             {| TAPYFees.Performance :=
                  TAPYFees.Performance (TAPY.Fees legacy);
                TAPYFees.Management := TAPYFees.Management (TAPY.Fees legacy);
                TAPYFees.Withdrawal := TAPYFees.Withdrawal (TAPY.Fees legacy);
                TAPYFees.KeepCRV := TAPYFees.KeepCRV (TAPY.Fees legacy);
                TAPYFees.CvxKeepCRV :=
                  TAPYFees.CvxKeepCRV (TAPY.Fees legacy) |} |}
    | None => apy
    end in
  set_APY t apy.

End Vaults.

(** ** The per-chain index *)

(** A [*TVault]: [None] is the nil pointer, [Some l] the record allocated
    at [l].  Two references are the same record exactly when they are equal. *)
Definition ref := option positive.
Definition nil_ref : ref := None.

(** The state of the package variable
    [_vaultMap map[uint64]map[ethcommon.Address]*TVault]. *)
Abbreviation vaultMap := (gmap uint64 (gmap ethcommon_Address ref)).

(** [for k, v := range m] visits every entry of [m] exactly once, in an
    order the language leaves unspecified: any arrangement of the entries
    is a possible run of the loop. *)
Definition range_of {K V : Type} `{Countable K}
    (m : gmap K V) (visited : list (K * V)) : Prop :=
  visited ≡ₚ map_to_list m.

(** The loop of [ListVaults] run over the entries in the order [visited]:
    [vaults = append(vaults, vault)] from the nil slice. *)
Definition ListVaults_loop (visited : list (ethcommon_Address * ref))
  : list ref :=
  fold_left (fun vaults kv => (vaults ++ [snd kv])%list) visited [].

(** The loop of [ListVaultsAddresses] run over the entries in the order
    [visited]: [addresses = append(addresses, common.FromAddress(address))]. *)
Definition ListVaultsAddresses_loop (visited : list (ethcommon_Address * ref))
  : list common_Address :=
  fold_left (fun addresses kv => (addresses ++ [FromAddress (fst kv)])%list)
    visited [].

(** [ListVaults] and [ListVaultsAddresses] with the entries of
    [_vaultMap[chainID]] visited in the order of [map_to_list]; every other
    run is [ListVaults_loop] over some [visited] with [range_of]. *)
Definition ListVaults (_vaultMap : vaultMap) (chainID : uint64) : list ref :=
  ListVaults_loop (map_to_list (chain_of _vaultMap chainID)).

Definition ListVaultsAddresses (_vaultMap : vaultMap) (chainID : uint64)
  : list common_Address :=
  ListVaultsAddresses_loop (map_to_list (chain_of _vaultMap chainID)).

(** [func FindVault(chainID uint64, vaultAddress common.Address)], which
    returns a pointer to a vault and the flag [ok]. *)
Definition FindVault (_vaultMap : vaultMap) (chainID : uint64)
    (vaultAddress : common_Address) : ref * bool :=
  match chain_of _vaultMap chainID !! ToAddress vaultAddress with
  | None => (nil_ref, false)
  | Some token => (token, true)
  end.

(** Modelled from the spec: the insertion the ingestion performs (section
    4.4, not a named operation of this file) adds or replaces the reference
    stored at (chainID, address). *)
Definition Insert (chainID : uint64) (address : ethcommon_Address)
    (vault : ref) (_vaultMap : vaultMap) : vaultMap :=
  <[chainID := <[address := vault]> (chain_of _vaultMap chainID)]> _vaultMap.

(** The index after a sequence of insertions (chain, address, reference),
    oldest first, and the index they build from the empty one that [make]
    creates. *)
Definition insert_all (history : list (uint64 * ethcommon_Address * ref))
    (_vaultMap : vaultMap) : vaultMap :=
  fold_left (fun m e => Insert (fst (fst e)) (snd (fst e)) (snd e) m)
    history _vaultMap.

Definition inserted (history : list (uint64 * ethcommon_Address * ref))
  : vaultMap :=
  insert_all history ∅.

(** ** Reading the results *)

(** [s] ends with [suffix], and [s] starts with [prefix], as propositions. *)
Definition ends_with (s suffix : string) : Prop :=
  exists front, s = front +:+ suffix.
Definition starts_with (s prefix : string) : Prop :=
  exists back, s = prefix +:+ back.

(** Removing the embedded quote characters, as both normalisers do. *)
Local Abbreviation strip s := (strings_Replace s dquote EmptyString).

(** A vault with the given address, raw name and symbol and token
    descriptor, and nothing else filled in. *)
Definition raw_vault (address : ethcommon_Address) (name symbol : string)
    (token : TERC20Token.t) : TVault.t unit :=
  TVault.mk address 0%N symbol EmptyString EmptyString
    name EmptyString EmptyString
    EmptyString EmptyString EmptyString 0%N 18%N false false 0%Z
    token (TTVL.mk None None 0 0 0 0)%N TAPY.zero [] TMigration.zero None.

(** The raw name of the scenario: My, a space, and Vault between two quote
    characters. *)
Definition quoted_name : string :=
  "My " +:+ String dquote ("Vault" +:+ String dquote EmptyString).

(** The vault of the naming scenario: the raw name above, token name
    [Foo Token]. *)
Definition scenario_vault : TVault.t unit :=
  raw_vault 2748%N quoted_name "yvFOO" (TERC20Token.mk "Foo Token" "FOO").

(** A string without any quote character, and a string made of quote
    characters only (the empty string is both). *)
Definition quote_free (s : string) : Prop := strip s = s.
Definition only_quotes (s : string) : Prop := strip s = EmptyString.

(** A vault whose raw symbol is empty and whose token symbol carries a
    quote character between its two letters. *)
Definition quoted_token_vault : TVault.t unit :=
  raw_vault 2748%N "Some Vault" EmptyString
    (TERC20Token.mk "Foo Token" ("y" +:+ String dquote "X")).

(** A plain vault: raw name and symbol non-empty and free of quotes. *)
Definition plain_vault : TVault.t unit :=
  raw_vault 2748%N "USD Coin Vault" "yvUSDC" (TERC20Token.mk "USD Coin" "USDC").

(** A curated-metadata store: on chain 1, the vault 0xABC (2748) migrates
    to 0xDEF (3567) and the vault 0x123 (291) has an entry without
    migration. *)
Definition sample_meta : gmap uint64 (gmap common_Address TVaultFromMeta.t) :=
  {[ 1%N := {[ FromAddress 2748%N :=
                 TVaultFromMeta.mk true (FromAddress 3567%N);
               FromAddress 291%N :=
                 TVaultFromMeta.mk false (FromAddress 2457%N) ]} ]}.

(** An analytics store with one entry, for the vault 0xABC on chain 1. *)
Definition sample_legacy : TAPY.t :=
  TAPY.mk "v2:averaged" 11%N 12%N
    (TAPYFees.mk 1 2 3 4 5)%N (TAPYPoints.mk 6 7 8)%N
    (TAPYComposite.mk 21 22 23 24 25 26)%N.

Definition sample_analytics
  : gmap uint64 (gmap common_Address TAggregatedVault.t) :=
  {[ 1%N := {[ FromAddress 2748%N := TAggregatedVault.mk sample_legacy ]} ]}.

(** An index built by four insertions, the last of which replaces the
    first. *)
Definition sample_history : list (uint64 * ethcommon_Address * ref) :=
  [ (1%N, 2748%N, Some 1%positive); (1%N, 291%N, Some 2%positive);
    (10%N, 2748%N, Some 3%positive); (1%N, 2748%N, Some 4%positive) ].

Definition sample_index : vaultMap := inserted sample_history.

(** A record normalised again and again, once per curated override of the
    list, oldest first: what the refresh of the curated metadata does to a
    record kept in the index. *)
Definition BuildNames_all {TStrategy : Type} (overrides : list string)
    (t : TVault.t TStrategy) : TVault.t TStrategy :=
  fold_left (fun t metaVaultName => BuildNames metaVaultName t) overrides t.

Definition BuildSymbol_all {TStrategy : Type} (overrides : list string)
    (t : TVault.t TStrategy) : TVault.t TStrategy :=
  fold_left (fun t metaVaultSymbol => BuildSymbol metaVaultSymbol t)
    overrides t.

(** A vault without raw name whose token name carries a quote character
    between its two letters. *)
Definition unnamed_vault : TVault.t unit :=
  raw_vault 2748%N EmptyString EmptyString
    (TERC20Token.mk ("a" +:+ String dquote "b") "FOO").

(** ** Facts about Go strings *)

#[local] Arguments String.append !_ _ / : simpl nomatch.

Lemma substring_0_length (s : string) : substring 0 (String.length s) s = s.
Proof. induction s as [|c s IH]; simpl; [reflexivity | now rewrite IH]. Qed.

Lemma substring_skip_app (p r : string) (m : nat) :
  substring (String.length p) m (p +:+ r) = substring 0 m r.
Proof.
  induction p as [|c p IH]; simpl; [|exact IH].
  destruct r, m; reflexivity.
Qed.

Lemma substring_split (s : string) (n : nat) :
  n <= String.length s ->
  substring 0 n s +:+ substring n (String.length s - n) s = s.
Proof.
  revert n; induction s as [|c s IH]; intros [|n] Hn; simpl in *.
  - reflexivity.
  - lia.
  - now rewrite substring_0_length.
  - f_equal. apply IH. lia.
Qed.

Lemma append_length (p r : string) :
  String.length (p +:+ r) = String.length p + String.length r.
Proof. induction p as [|c p IH]; simpl; [reflexivity | now rewrite IH]. Qed.

Lemma strings_HasPrefix_spec (s prefix : string) :
  strings_HasPrefix s prefix = true <-> starts_with s prefix.
Proof.
  unfold strings_HasPrefix, starts_with. rewrite andb_true_iff.
  rewrite Nat.leb_le, String.eqb_eq. split.
  - intros [Hlen Hsub].
    exists (substring (String.length prefix)
              (String.length s - String.length prefix) s).
    pose proof (substring_split s (String.length prefix) Hlen) as E.
    rewrite Hsub in E. now symmetry.
  - intros [back ->]. rewrite append_length. split; [lia|].
    clear. induction prefix as [|c p IH]; simpl.
    + now destruct back.
    + now rewrite IH.
Qed.

Lemma strings_HasSuffix_spec (s suffix : string) :
  strings_HasSuffix s suffix = true <-> ends_with s suffix.
Proof.
  unfold strings_HasSuffix, ends_with. rewrite andb_true_iff.
  rewrite Nat.leb_le, String.eqb_eq. split.
  - intros [Hlen Hsub].
    exists (substring 0 (String.length s - String.length suffix) s).
    assert (String.length s - String.length suffix <= String.length s)
      as Hle by lia.
    pose proof (substring_split s _ Hle) as E.
    replace (String.length s - (String.length s - String.length suffix))
      with (String.length suffix) in E by lia.
    rewrite Hsub in E. now symmetry.
  - intros [front ->]. rewrite append_length. split; [lia|].
    replace (String.length front + String.length suffix - String.length suffix)
      with (String.length front) by lia.
    rewrite substring_skip_app. apply substring_0_length.
Qed.

Lemma ends_with_app (front mid suffix : string) :
  ends_with (front +:+ mid +:+ suffix) suffix.
Proof.
  exists (front +:+ mid).
  induction front as [|c p IH]; simpl; [reflexivity | now rewrite IH].
Qed.

Lemma nonempty_true (s : string) : nonempty s = true <-> s <> EmptyString.
Proof.
  unfold nonempty. rewrite negb_true_iff.
  destruct (String.eqb_spec s EmptyString); split; congruence.
Qed.

Lemma nonempty_false (s : string) : nonempty s = false <-> s = EmptyString.
Proof.
  unfold nonempty. rewrite negb_false_iff. apply String.eqb_eq.
Qed.

Lemma strip_no_quote (s : string) : strip (strip s) = strip s.
Proof.
  induction s as [|c s IH]; simpl; [reflexivity|].
  destruct (Ascii.eqb c dquote) eqn:Hc; simpl; [exact IH|].
  now rewrite Hc, IH.
Qed.

Lemma strip_yv (s : string) : strip ("yv" +:+ s) = "yv" +:+ strip s.
Proof. reflexivity. Qed.

Lemma append_nonempty (s r : string) :
  r <> EmptyString -> s +:+ r <> EmptyString.
Proof. destruct s; simpl; [auto | discriminate]. Qed.

(** Settles the emptiness tests of the goal from the hypotheses at hand. *)
Ltac norm_empty :=
  repeat (simpl;
    match goal with
    | H : ?x <> EmptyString |- context [String.eqb ?x EmptyString] =>
        rewrite (proj2 (String.eqb_neq x EmptyString) H)
    | H : ?x = EmptyString |- context [String.eqb ?x EmptyString] =>
        rewrite H
    | |- context [strip (strip ?s)] => rewrite (strip_no_quote s)
    end); simpl.

(** ** The naming normaliser: what it writes *)

Section Naming.
Context {TStrategy : Type}.
Implicit Types (t : TVault.t TStrategy) (m : string).

Lemma BuildNames_DisplayName m t :
  TVault.DisplayName (BuildNames m t) =
    if nonempty m then m else TVault.Name t.
Proof. reflexivity. Qed.

Lemma BuildNames_FormatedName m t :
  TVault.FormatedName (BuildNames m t) =
    let d := TVault.DisplayName (BuildNames m t) in
    let T := TERC20Token.Name (TVault.Token t) in
    if nonempty d && negb (strings_HasSuffix d "yVault") then d +:+ " yVault"
    else if negb (strings_HasSuffix T "yVault") then T +:+ " yVault" else T.
Proof. reflexivity. Qed.

Lemma BuildNames_Name m t :
  TVault.Name (BuildNames m t) =
    let n := strip (TVault.Name t) in
    let n :=
      if String.eqb n EmptyString
      then TVault.DisplayName (BuildNames m t) else n in
    if String.eqb n EmptyString
    then TVault.FormatedName (BuildNames m t) else n.
Proof. reflexivity. Qed.

Lemma BuildSymbol_FormatedSymbol m t :
  TVault.FormatedSymbol (BuildSymbol m t) =
    let T := TERC20Token.Symbol (TVault.Token t) in
    if nonempty m && negb (strings_HasPrefix m "yv") then "yv" +:+ m
    else if negb (strings_HasPrefix T "yv") then "yv" +:+ T else T.
Proof. reflexivity. Qed.

Lemma BuildSymbol_Symbol m t :
  TVault.Symbol (BuildSymbol m t) =
    helpers_SafeString
      (helpers_SafeString (strip (TVault.Symbol t)) m)
      (TVault.FormatedSymbol (BuildSymbol m t)).
Proof. reflexivity. Qed.

Lemma BuildSymbol_DisplaySymbol m t :
  TVault.DisplaySymbol (BuildSymbol m t) =
    helpers_SafeString m (TVault.Symbol (BuildSymbol m t)).
Proof. reflexivity. Qed.

Lemma BuildNames_FormatedName_cases m t :
  (exists base, TVault.FormatedName (BuildNames m t) = base +:+ " yVault")
  \/ (TVault.FormatedName (BuildNames m t) = TERC20Token.Name (TVault.Token t)
      /\ ends_with (TERC20Token.Name (TVault.Token t)) "yVault").
Proof.
  rewrite BuildNames_FormatedName. cbv zeta.
  destruct (_ && _); [eauto|].
  destruct (negb _) eqn:E; [eauto|].
  apply negb_false_iff, strings_HasSuffix_spec in E. auto.
Qed.

Lemma BuildNames_FormatedName_ends m t :
  ends_with (TVault.FormatedName (BuildNames m t)) "yVault".
Proof.
  destruct (BuildNames_FormatedName_cases m t) as [[base ->]|[-> H]].
  - apply (ends_with_app base " " "yVault").
  - exact H.
Qed.

Lemma BuildNames_FormatedName_nonempty m t :
  TVault.FormatedName (BuildNames m t) <> EmptyString.
Proof.
  destruct (BuildNames_FormatedName_ends m t) as [front ->].
  now apply append_nonempty.
Qed.

(** C4: after [BuildNames] the formatted name ends with [yVault]: it is a
    string to which [ yVault] (with its space) was appended, or it is the
    token's name, which already ended in [yVault]. *)
Theorem BuildNames_FormatedName_suffix m t :
  strings_HasSuffix (TVault.FormatedName (BuildNames m t)) "yVault" = true
  /\ ends_with (TVault.FormatedName (BuildNames m t)) "yVault"
  /\ ((exists base,
         TVault.FormatedName (BuildNames m t) = base +:+ " yVault")
      \/ TVault.FormatedName (BuildNames m t)
         = TERC20Token.Name (TVault.Token t)).
Proof.
  rewrite strings_HasSuffix_spec.
  pose proof (BuildNames_FormatedName_ends m t) as Hends.
  destruct (BuildNames_FormatedName_cases m t) as [Hbase|[Htok _]]; auto.
Qed.

(** C3: after [BuildSymbol] the formatted symbol starts with [yv]. *)
Theorem BuildSymbol_FormatedSymbol_prefix m t :
  strings_HasPrefix (TVault.FormatedSymbol (BuildSymbol m t)) "yv" = true
  /\ starts_with (TVault.FormatedSymbol (BuildSymbol m t)) "yv".
Proof.
  rewrite strings_HasPrefix_spec, BuildSymbol_FormatedSymbol. cbv zeta.
  assert (forall back, starts_with ("yv" +:+ back) "yv") as Happ
    by (intros back; now exists back).
  destruct (_ && _); [auto|].
  destruct (negb _) eqn:E; [auto|].
  apply negb_false_iff, strings_HasPrefix_spec in E. auto.
Qed.

(** [BuildNames] rebuilds the same record as soon as it rebuilds the same
    name and display name: the formatted name is computed from the display
    name and the token, and nothing else is written. *)
Lemma BuildNames_again m t :
  BuildNames m (BuildNames m t) = BuildNames m t <->
  TVault.Name (BuildNames m (BuildNames m t)) = TVault.Name (BuildNames m t)
  /\ TVault.DisplayName (BuildNames m (BuildNames m t))
     = TVault.DisplayName (BuildNames m t).
Proof.
  split; [intros ->; auto|]. intros [HN HD].
  assert (TVault.FormatedName (BuildNames m (BuildNames m t))
          = TVault.FormatedName (BuildNames m t)) as HF.
  { rewrite (BuildNames_FormatedName m (BuildNames m t)), HD. reflexivity. }
  change (BuildNames m (BuildNames m t)) with
    (set_names t
       (TVault.Name (BuildNames m (BuildNames m t)))
       (TVault.DisplayName (BuildNames m (BuildNames m t)))
       (TVault.FormatedName (BuildNames m (BuildNames m t)))).
  rewrite HN, HD, HF. reflexivity.
Qed.

(** When [BuildNames] applied twice is [BuildNames] applied once. *)
Lemma BuildNames_twice m t :
  BuildNames m (BuildNames m t) = BuildNames m t <->
  (m <> EmptyString
   /\ (strip (TVault.Name t) <> EmptyString
       \/ only_quotes m \/ quote_free m))
  \/ (m = EmptyString /\ TVault.Name t <> EmptyString
      /\ (only_quotes (TVault.Name t) \/ quote_free (TVault.Name t))).
Proof.
  rewrite BuildNames_again.
  rewrite (BuildNames_Name m (BuildNames m t)),
    (BuildNames_DisplayName m (BuildNames m t)).
  pose proof (BuildNames_FormatedName_nonempty m (BuildNames m t)) as HF2.
  revert HF2.
  generalize (TVault.FormatedName (BuildNames m (BuildNames m t))) as F2.
  rewrite (BuildNames_Name m t), (BuildNames_DisplayName m t).
  pose proof (BuildNames_FormatedName_nonempty m t) as HF1.
  revert HF1. generalize (TVault.FormatedName (BuildNames m t)) as F1.
  generalize (TVault.Name t) as N. clear t.
  unfold only_quotes, quote_free, nonempty. cbv zeta.
  intros N F1 HF1 F2 HF2.
  destruct (String.eqb_spec m EmptyString) as [->|Hm];
    destruct (String.eqb_spec (strip N) EmptyString) as [Hn|Hn]; norm_empty.
  - (* no override, nothing left of the raw name *)
    destruct (String.eqb_spec N EmptyString) as [->|HN0]; norm_empty.
    + split; [intros [_ E]; congruence|].
      intros [[[] _]|(_ & [] & _)]; reflexivity.
    + split; [right|]; auto.
  - (* no override, a raw name with something besides quotes *)
    split.
    + intros [_ E]. right. rewrite E in *. repeat split; auto.
    + intros [[[] _]|(_ & HN0 & [E|E])]; [reflexivity | congruence | auto].
  - (* an override, nothing left of the raw name *)
    destruct (String.eqb_spec (strip m) EmptyString) as [Hsm|Hsm]; norm_empty.
    + split; [left|]; auto.
    + split.
      * intros [E _]. left; auto.
      * intros [(_ & [E|[E|E]])|[E _]]; try congruence. auto.
  - (* an override, a raw name with something besides quotes *)
    split; [left|]; auto.
Qed.

(** [BuildSymbol] rebuilds the same record as soon as it rebuilds the same
    symbol. *)
Lemma BuildSymbol_again m t :
  BuildSymbol m (BuildSymbol m t) = BuildSymbol m t <->
  TVault.Symbol (BuildSymbol m (BuildSymbol m t))
  = TVault.Symbol (BuildSymbol m t).
Proof.
  split; [intros ->; auto|]. intros HS.
  assert (TVault.DisplaySymbol (BuildSymbol m (BuildSymbol m t))
          = TVault.DisplaySymbol (BuildSymbol m t)) as HD.
  { rewrite (BuildSymbol_DisplaySymbol m (BuildSymbol m t)), HS.
    reflexivity. }
  change (BuildSymbol m (BuildSymbol m t)) with
    (set_symbols t
       (TVault.Symbol (BuildSymbol m (BuildSymbol m t)))
       (TVault.DisplaySymbol (BuildSymbol m (BuildSymbol m t)))
       (TVault.FormatedSymbol (BuildSymbol m t))).
  rewrite HS, HD. reflexivity.
Qed.

(** The formatted symbol built without an override is the token's symbol
    behind [yv]: it is never empty once stripped, and it is free of quotes
    exactly when the token's symbol is. *)
Lemma formated_symbol_strip (T : string) :
  let F := if negb (strings_HasPrefix T "yv") then "yv" +:+ T else T in
  strip F <> EmptyString /\ (strip F = F <-> strip T = T).
Proof.
  cbv zeta. destruct (negb _) eqn:E.
  - rewrite strip_yv. split; [discriminate|].
    split; [intros H; now injection H | intros ->; reflexivity].
  - apply negb_false_iff, strings_HasPrefix_spec in E. destruct E as [r ->].
    rewrite strip_yv. split; [discriminate | reflexivity].
Qed.

(** When [BuildSymbol] applied twice is [BuildSymbol] applied once. *)
Lemma BuildSymbol_twice m t :
  BuildSymbol m (BuildSymbol m t) = BuildSymbol m t <->
  strip (TVault.Symbol t) <> EmptyString
  \/ (m <> EmptyString /\ (only_quotes m \/ quote_free m))
  \/ (m = EmptyString
      /\ quote_free (TERC20Token.Symbol (TVault.Token t))).
Proof.
  rewrite BuildSymbol_again.
  rewrite (BuildSymbol_Symbol m (BuildSymbol m t)).
  change (TVault.FormatedSymbol (BuildSymbol m (BuildSymbol m t)))
    with (TVault.FormatedSymbol (BuildSymbol m t)).
  rewrite (BuildSymbol_Symbol m t), BuildSymbol_FormatedSymbol.
  pose proof (formated_symbol_strip (TERC20Token.Symbol (TVault.Token t)))
    as HF. revert HF.
  generalize (TERC20Token.Symbol (TVault.Token t)) as T.
  generalize (TVault.Symbol t) as S. clear t.
  unfold only_quotes, quote_free, helpers_SafeString, nonempty. cbv zeta.
  intros S T.
  destruct (String.eqb_spec (strip S) EmptyString) as [Hs|Hs];
    destruct (String.eqb_spec m EmptyString) as [->|Hm]; norm_empty.
  - (* nothing left of the raw symbol, no override *)
    intros [HF0 HFq].
    match goal with
    | |- context [if negb (strings_HasPrefix T "yv") then ?a else T] =>
        set (F := if negb (strings_HasPrefix T "yv") then a else T) in *
    end.
    assert (F <> EmptyString) as HF1
      by (intros E; rewrite E in HF0; now apply HF0).
    norm_empty. rewrite HFq. split; [auto|].
    intros [[]|[[[] _]|[_ E]]]; auto.
  - (* nothing left of the raw symbol, an override *)
    intros _.
    destruct (String.eqb_spec (strip m) EmptyString) as [Hsm|Hsm]; norm_empty.
    + split; auto.
    + split; [auto|]. intros [[]|[[_ [E|E]]|[E _]]]; congruence.
  - intros _. split; auto.
  - intros _. split; auto.
Qed.

End Naming.

(** ** The naming scenario and repeated normalisation *)

(** C2, as the code behaves: on the scenario's vault (raw name with embedded
    quotes, no override, token name [Foo Token]) the final name is
    [My Vault] and the display name keeps its quotes, and the formatted name
    is built from that non-empty display name, quotes included, not from
    the token's name. *)
Theorem BuildNames_scenario :
  TVault.Name (BuildNames EmptyString scenario_vault) = "My Vault"
  /\ TVault.DisplayName (BuildNames EmptyString scenario_vault) = quoted_name
  /\ TVault.FormatedName (BuildNames EmptyString scenario_vault)
     = quoted_name +:+ " yVault".
Proof. repeat split; reflexivity. Qed.

(** C2 as stated fails: the formatted name of the scenario is not
    [Foo Token yVault]. *)
Lemma BuildNames_scenario_not_token :
  ~ (TVault.Name (BuildNames EmptyString scenario_vault) = "My Vault"
     /\ TVault.FormatedName (BuildNames EmptyString scenario_vault)
        = "Foo Token yVault"
     /\ TVault.DisplayName (BuildNames EmptyString scenario_vault)
        = quoted_name).
Proof. intros (_ & H & _). vm_compute in H. discriminate H. Qed.

(** C1, as the code behaves: a second [BuildNames] with the same override
    changes nothing exactly when either the override is non-empty and the
    raw name has a character besides quotes or the override is free of
    quotes or made of quotes only, or the override is empty and the raw name
    is non-empty and free of quotes or made of quotes only; a second
    [BuildSymbol] with the same override changes nothing exactly when the
    raw symbol has a character besides quotes, or the override is non-empty
    and free of quotes or made of quotes only, or the override is empty and
    the token's symbol is free of quotes. *)
Theorem normalise_twice {TStrategy : Type}
    (metaVaultName metaVaultSymbol : string) (t : TVault.t TStrategy) :
  (BuildNames metaVaultName (BuildNames metaVaultName t)
   = BuildNames metaVaultName t
   <-> (metaVaultName <> EmptyString
        /\ (strip (TVault.Name t) <> EmptyString
            \/ only_quotes metaVaultName \/ quote_free metaVaultName))
       \/ (metaVaultName = EmptyString /\ TVault.Name t <> EmptyString
           /\ (only_quotes (TVault.Name t) \/ quote_free (TVault.Name t))))
  /\ (BuildSymbol metaVaultSymbol (BuildSymbol metaVaultSymbol t)
      = BuildSymbol metaVaultSymbol t
      <-> strip (TVault.Symbol t) <> EmptyString
          \/ (metaVaultSymbol <> EmptyString
              /\ (only_quotes metaVaultSymbol \/ quote_free metaVaultSymbol))
          \/ (metaVaultSymbol = EmptyString
              /\ quote_free (TERC20Token.Symbol (TVault.Token t)))).
Proof. split; [apply BuildNames_twice | apply BuildSymbol_twice]. Qed.

(** C1 as stated fails: on the scenario's vault the second [BuildNames]
    rewrites the display and formatted names, and on a vault with an empty
    raw symbol and a quote in its token symbol the second [BuildSymbol]
    rewrites the symbol. *)
Lemma normalise_twice_differs :
  BuildNames EmptyString (BuildNames EmptyString scenario_vault)
  <> BuildNames EmptyString scenario_vault
  /\ BuildSymbol EmptyString (BuildSymbol EmptyString quoted_token_vault)
     <> BuildSymbol EmptyString quoted_token_vault.
Proof. split; intros H; vm_compute in H; discriminate H. Qed.

(** On a record whose raw name and raw symbol are non-empty and free of
    quotes, both normalisers are idempotent for every override. *)
Lemma normalise_twice_plain {TStrategy : Type}
    (metaVaultName metaVaultSymbol : string) (t : TVault.t TStrategy) :
  TVault.Name t <> EmptyString -> quote_free (TVault.Name t) ->
  TVault.Symbol t <> EmptyString -> quote_free (TVault.Symbol t) ->
  BuildNames metaVaultName (BuildNames metaVaultName t)
  = BuildNames metaVaultName t
  /\ BuildSymbol metaVaultSymbol (BuildSymbol metaVaultSymbol t)
     = BuildSymbol metaVaultSymbol t.
Proof.
  intros HN HNq HS HSq. split.
  - apply BuildNames_twice.
    destruct (String.eqb_spec metaVaultName EmptyString) as [->|Hm].
    + right; auto.
    + left. rewrite HNq. auto.
  - apply BuildSymbol_twice. left. now rewrite HSq.
Qed.

Example normalise_twice_plain_vault :
  BuildNames "USDC yVault" (BuildNames "USDC yVault" plain_vault)
  = BuildNames "USDC yVault" plain_vault
  /\ BuildSymbol "USDC" (BuildSymbol "USDC" plain_vault)
     = BuildSymbol "USDC" plain_vault.
Proof.
  apply normalise_twice_plain; first [discriminate | reflexivity].
Qed.

(** ** The enrichment merger *)

Lemma chain_of_lookup {K V : Type} `{Countable K}
    (m : gmap uint64 (gmap K V)) (chainID : uint64) (key : K) :
  chain_of m chainID !! key = m !! chainID ≫= (fun inner => inner !! key).
Proof.
  unfold chain_of. destruct (m !! chainID); simpl; [reflexivity|].
  apply lookup_empty.
Qed.

(** C5: [BuildMigration] sets the migration status to the zero value when
    the curated-metadata store has no entry for the chain and the record's
    address, to unavailable with the record's own address when the entry
    marks migration unavailable, and to available with the entry's target
    vault when the entry marks it available. *)
Theorem BuildMigration_cases {TStrategy : Type}
    (VaultsFromMeta : gmap uint64 (gmap common_Address TVaultFromMeta.t))
    (chainID : uint64) (t : TVault.t TStrategy) :
  (chain_of VaultsFromMeta chainID !! FromAddress (TVault.Address t) = None ->
   TVault.Migration (BuildMigration VaultsFromMeta chainID t)
   = TMigration.mk false zero_Address)
  /\ (forall entry,
        chain_of VaultsFromMeta chainID !! FromAddress (TVault.Address t)
        = Some entry ->
        TVaultFromMeta.MigrationAvailable entry = false ->
        TVault.Migration (BuildMigration VaultsFromMeta chainID t)
        = TMigration.mk false (FromAddress (TVault.Address t)))
  /\ (forall entry,
        chain_of VaultsFromMeta chainID !! FromAddress (TVault.Address t)
        = Some entry ->
        TVaultFromMeta.MigrationAvailable entry = true ->
        TVault.Migration (BuildMigration VaultsFromMeta chainID t)
        = TMigration.mk true (TVaultFromMeta.MigrationTargetVault entry)).
Proof.
  unfold BuildMigration. cbv zeta. cbn [set_Migration TVault.Migration].
  repeat split.
  - intros ->. reflexivity.
  - intros entry -> Hoff. now rewrite Hoff.
  - intros entry -> Hon. now rewrite Hon.
Qed.

Lemma BuildMigration_cases_witness :
  TVault.Migration
    (BuildMigration sample_meta 5%N scenario_vault)
  = TMigration.mk false zero_Address
  /\ TVault.Migration
       (BuildMigration sample_meta 1%N
          (raw_vault 291%N "A" "B" (TERC20Token.mk "C" "D")))
     = TMigration.mk false (FromAddress 291%N)
  /\ TVault.Migration (BuildMigration sample_meta 1%N scenario_vault)
     = TMigration.mk true (FromAddress 3567%N).
Proof.
  split; [|split].
  - apply (BuildMigration_cases sample_meta 5%N scenario_vault).
    vm_compute. reflexivity.
  - apply (proj1 (proj2 (BuildMigration_cases sample_meta 1%N
                           (raw_vault 291%N "A" "B" (TERC20Token.mk "C" "D"))))
             (TVaultFromMeta.mk false (FromAddress 2457%N)));
      vm_compute; reflexivity.
  - apply (proj2 (proj2 (BuildMigration_cases sample_meta 1%N scenario_vault))
             (TVaultFromMeta.mk true (FromAddress 3567%N)));
      vm_compute; reflexivity.
Defined.

(** C6: [BuildAPY] always returns: without an entry in the analytics store
    for the chain and the record's address the APY snapshot is the all-zero
    value, and with an entry its type, gross APR, net APY, points, composite
    and fees are those of the entry, unchanged. *)
Theorem BuildAPY_copies {TStrategy : Type}
    (AggregatedVault : gmap uint64 (gmap common_Address TAggregatedVault.t))
    (chainID : uint64) (t : TVault.t TStrategy) :
  (chain_of AggregatedVault chainID !! FromAddress (TVault.Address t) = None ->
   TVault.APY (BuildAPY AggregatedVault chainID t) = TAPY.zero)
  /\ (forall entry,
        chain_of AggregatedVault chainID !! FromAddress (TVault.Address t)
        = Some entry ->
        let apy := TVault.APY (BuildAPY AggregatedVault chainID t) in
        let legacy := TAggregatedVault.LegacyAPY entry in
        TAPY.Type_ apy = TAPY.Type_ legacy
        /\ TAPY.GrossAPR apy = TAPY.GrossAPR legacy
        /\ TAPY.NetAPY apy = TAPY.NetAPY legacy
        /\ TAPY.Points apy = TAPY.Points legacy
        /\ TAPY.Composite apy = TAPY.Composite legacy
        /\ TAPY.Fees apy = TAPY.Fees legacy).
Proof.
  unfold BuildAPY. cbv zeta. cbn [set_APY TVault.APY]. split.
  - intros ->. reflexivity.
  - intros [[ty gross net [] [] []]] ->. cbn. repeat split.
Qed.

Lemma BuildAPY_copies_witness :
  TVault.APY (BuildAPY sample_analytics 5%N scenario_vault) = TAPY.zero
  /\ TAPY.Fees (TVault.APY (BuildAPY sample_analytics 1%N scenario_vault))
     = (TAPYFees.mk 1 2 3 4 5)%N.
Proof.
  split.
  - apply (BuildAPY_copies sample_analytics 5%N scenario_vault).
    vm_compute. reflexivity.
  - apply (proj2 (BuildAPY_copies sample_analytics 1%N scenario_vault)
             (TAggregatedVault.mk sample_legacy)).
    vm_compute. reflexivity.
Defined.

(** C10: [BuildMigration] leaves every field of the record but [Migration]
    as it was, and [BuildAPY] every field but [APY]. *)
Theorem enrichment_frame {TStrategy : Type}
    (VaultsFromMeta : gmap uint64 (gmap common_Address TVaultFromMeta.t))
    (AggregatedVault : gmap uint64 (gmap common_Address TAggregatedVault.t))
    (chainID : uint64) (t : TVault.t TStrategy) :
  let tm := BuildMigration VaultsFromMeta chainID t in
  let ta := BuildAPY AggregatedVault chainID t in
  (TVault.Address tm = TVault.Address t
   /\ TVault.Registry tm = TVault.Registry t
   /\ TVault.Symbol tm = TVault.Symbol t
   /\ TVault.DisplaySymbol tm = TVault.DisplaySymbol t
   /\ TVault.FormatedSymbol tm = TVault.FormatedSymbol t
   /\ TVault.Name tm = TVault.Name t
   /\ TVault.DisplayName tm = TVault.DisplayName t
   /\ TVault.FormatedName tm = TVault.FormatedName t
   /\ TVault.Icon tm = TVault.Icon t
   /\ TVault.Version tm = TVault.Version t
   /\ TVault.Type_ tm = TVault.Type_ t
   /\ TVault.Inception tm = TVault.Inception t
   /\ TVault.Decimals tm = TVault.Decimals t
   /\ TVault.Endorsed tm = TVault.Endorsed t
   /\ TVault.Emergency_shutdown tm = TVault.Emergency_shutdown t
   /\ TVault.PricePerShare tm = TVault.PricePerShare t
   /\ TVault.Token tm = TVault.Token t
   /\ TVault.TVL tm = TVault.TVL t
   /\ TVault.APY tm = TVault.APY t
   /\ TVault.Strategies tm = TVault.Strategies t
   /\ TVault.Details tm = TVault.Details t)
  /\ (TVault.Address ta = TVault.Address t
      /\ TVault.Registry ta = TVault.Registry t
      /\ TVault.Symbol ta = TVault.Symbol t
      /\ TVault.DisplaySymbol ta = TVault.DisplaySymbol t
      /\ TVault.FormatedSymbol ta = TVault.FormatedSymbol t
      /\ TVault.Name ta = TVault.Name t
      /\ TVault.DisplayName ta = TVault.DisplayName t
      /\ TVault.FormatedName ta = TVault.FormatedName t
      /\ TVault.Icon ta = TVault.Icon t
      /\ TVault.Version ta = TVault.Version t
      /\ TVault.Type_ ta = TVault.Type_ t
      /\ TVault.Inception ta = TVault.Inception t
      /\ TVault.Decimals ta = TVault.Decimals t
      /\ TVault.Endorsed ta = TVault.Endorsed t
      /\ TVault.Emergency_shutdown ta = TVault.Emergency_shutdown t
      /\ TVault.PricePerShare ta = TVault.PricePerShare t
      /\ TVault.Token ta = TVault.Token t
      /\ TVault.TVL ta = TVault.TVL t
      /\ TVault.Strategies ta = TVault.Strategies t
      /\ TVault.Migration ta = TVault.Migration t
      /\ TVault.Details ta = TVault.Details t).
Proof. cbv zeta. repeat split. Qed.

(** ** The per-chain index *)

Lemma chain_of_Insert (c c' : uint64) (a : ethcommon_Address) (r : ref)
    (m : vaultMap) :
  chain_of (Insert c a r m) c' =
    if decide (c = c') then <[a := r]> (chain_of m c) else chain_of m c'.
Proof.
  unfold Insert. unfold chain_of at 1. rewrite lookup_insert.
  destruct (decide (c = c')); reflexivity.
Qed.

(** An insertion at another key is not seen at this one. *)
Lemma lookup_Insert_ne (c c' : uint64) (a a' : ethcommon_Address) (r : ref)
    (m : vaultMap) :
  (c, a) <> (c', a') ->
  chain_of (Insert c a r m) c' !! a' = chain_of m c' !! a'.
Proof.
  intros Hne. rewrite chain_of_Insert.
  destruct (decide (c = c')) as [->|]; [|reflexivity].
  apply lookup_insert_ne. congruence.
Qed.

Lemma lookup_Insert_eq (c : uint64) (a : ethcommon_Address) (r : ref)
    (m : vaultMap) :
  chain_of (Insert c a r m) c !! a = Some r.
Proof.
  rewrite chain_of_Insert, decide_True by reflexivity.
  apply lookup_insert_eq.
Qed.

(** Insertions none of which is at (c, a) leave the entry at (c, a) as it
    was. *)
Lemma lookup_insert_all_other (h : list (uint64 * ethcommon_Address * ref))
    (m : vaultMap) (c : uint64) (a : ethcommon_Address) :
  (forall r, (c, a, r) ∉ h) ->
  chain_of (insert_all h m) c !! a = chain_of m c !! a.
Proof.
  revert m. induction h as [|[[c' a'] r'] h IH]; intros m Hnot.
  - reflexivity.
  - cbn [insert_all fold_left fst snd].
    change (fold_left _ h ?m0) with (insert_all h m0).
    rewrite IH.
    + apply lookup_Insert_ne. intros [= -> ->].
      apply (Hnot r'). constructor.
    + intros r Hin. apply (Hnot r). now constructor.
Qed.

Lemma lookup_inserted_never (h : list (uint64 * ethcommon_Address * ref))
    (c : uint64) (a : ethcommon_Address) :
  (forall r, (c, a, r) ∉ h) -> chain_of (inserted h) c !! a = None.
Proof.
  intros Hnot. unfold inserted. rewrite lookup_insert_all_other by exact Hnot.
  unfold chain_of. rewrite lookup_empty. apply lookup_empty.
Qed.

Lemma lookup_inserted_last (h1 h2 : list (uint64 * ethcommon_Address * ref))
    (c : uint64) (a : ethcommon_Address) (r : ref) :
  (forall r', (c, a, r') ∉ h2) ->
  chain_of (inserted (h1 ++ (c, a, r) :: h2)) c !! a = Some r.
Proof.
  intros Hnot. unfold inserted, insert_all.
  rewrite fold_left_app. cbn [fold_left fst snd].
  change (fold_left _ h2 ?m0) with (insert_all h2 m0).
  rewrite lookup_insert_all_other by exact Hnot.
  apply lookup_Insert_eq.
Qed.

(** C7: [FindVault] returns found=false, with no error, when the index has
    no entry for the chain and address, as is the case when no insertion
    was ever made at that key; it returns found=true and the very
    reference stored when there is an entry, which is the reference of the
    latest insertion at that key. *)
Theorem FindVault_spec (_vaultMap : vaultMap) (chainID : uint64)
    (vaultAddress : common_Address) :
  (chain_of _vaultMap chainID !! ToAddress vaultAddress = None ->
   FindVault _vaultMap chainID vaultAddress = (nil_ref, false))
  /\ (forall vault,
        chain_of _vaultMap chainID !! ToAddress vaultAddress = Some vault ->
        FindVault _vaultMap chainID vaultAddress = (vault, true))
  /\ (forall history,
        _vaultMap = inserted history ->
        (forall vault, (chainID, ToAddress vaultAddress, vault) ∉ history) ->
        FindVault _vaultMap chainID vaultAddress = (nil_ref, false))
  /\ (forall before after vault,
        _vaultMap
        = inserted (before ++ (chainID, ToAddress vaultAddress, vault) :: after) ->
        (forall later, (chainID, ToAddress vaultAddress, later) ∉ after) ->
        FindVault _vaultMap chainID vaultAddress = (vault, true)).
Proof.
  unfold FindVault. repeat split.
  - intros ->. reflexivity.
  - intros vault ->. reflexivity.
  - intros history -> Hnever.
    now rewrite lookup_inserted_never.
  - intros before after vault -> Hlast.
    now rewrite lookup_inserted_last.
Qed.

Lemma FindVault_spec_witness :
  FindVault sample_index 1%N (FromAddress 2748%N) = (Some 4%positive, true)
  /\ FindVault sample_index 10%N (FromAddress 291%N) = (nil_ref, false).
Proof.
  split.
  - apply (proj2 (proj2 (proj2
             (FindVault_spec sample_index 1%N (FromAddress 2748%N))))
             [ (1%N, 2748%N, Some 1%positive); (1%N, 291%N, Some 2%positive);
               (10%N, 2748%N, Some 3%positive) ]
             [] (Some 4%positive)).
    + reflexivity.
    + intros later Hin. inversion Hin.
  - apply (proj1 (proj2 (proj2
             (FindVault_spec sample_index 10%N (FromAddress 291%N))))
             sample_history).
    + reflexivity.
    + intros vault Hin. unfold sample_history in Hin.
      repeat (apply elem_of_cons in Hin as [Hin|Hin]; [discriminate Hin|]).
      inversion Hin.
Defined.

(** C9: when [FindVault] reports found=false the reference it returns is
    nil. *)
Theorem FindVault_miss_nil (_vaultMap : vaultMap) (chainID : uint64)
    (vaultAddress : common_Address) :
  snd (FindVault _vaultMap chainID vaultAddress) = false ->
  fst (FindVault _vaultMap chainID vaultAddress) = nil_ref.
Proof.
  unfold FindVault.
  destruct (chain_of _vaultMap chainID !! ToAddress vaultAddress);
    simpl; [discriminate | reflexivity].
Qed.

Lemma FindVault_miss_nil_witness :
  snd (FindVault sample_index 10%N (FromAddress 291%N)) = false
  /\ fst (FindVault sample_index 10%N (FromAddress 291%N)) = nil_ref.
Proof.
  split.
  - vm_compute. reflexivity.
  - apply (FindVault_miss_nil sample_index 10%N (FromAddress 291%N)).
    vm_compute. reflexivity.
Defined.

Lemma fold_left_append {A B : Type} (f : A -> B) (l : list A) (acc : list B) :
  fold_left (fun acc x => (acc ++ [f x])%list) l acc = (acc ++ (f <$> l))%list.
Proof.
  revert acc. induction l as [|x l IH]; intros acc; csimpl.
  - now rewrite app_nil_r.
  - rewrite IH, <- app_assoc. reflexivity.
Qed.

Lemma ListVaults_loop_map (visited : list (ethcommon_Address * ref)) :
  ListVaults_loop visited = snd <$> visited.
Proof. unfold ListVaults_loop. now rewrite fold_left_append. Qed.

Lemma ListVaultsAddresses_loop_map (visited : list (ethcommon_Address * ref)) :
  ListVaultsAddresses_loop visited = FromAddress <$> (fst <$> visited).
Proof.
  unfold ListVaultsAddresses_loop.
  rewrite (fold_left_append (fun kv => FromAddress (fst kv))).
  now rewrite <- list_fmap_compose.
Qed.

(** C8: whatever the order in which the entries of the chain are visited,
    [ListVaults] produces as many references as there are addresses stored
    for the chain, and [ListVaultsAddresses] produces each of these
    addresses, once, and nothing else. *)
Theorem List_spec (_vaultMap : vaultMap) (chainID : uint64)
    (visited : list (ethcommon_Address * ref)) :
  range_of (chain_of _vaultMap chainID) visited ->
  length (ListVaults_loop visited) = size (dom (chain_of _vaultMap chainID))
  /\ NoDup (ListVaultsAddresses_loop visited)
  /\ (forall address : common_Address,
        address ∈ ListVaultsAddresses_loop visited
        <-> ToAddress address ∈ dom (chain_of _vaultMap chainID)).
Proof.
  unfold range_of. intros Hperm.
  rewrite ListVaults_loop_map, ListVaultsAddresses_loop_map.
  split; [|split].
  - rewrite length_fmap, Hperm, length_map_to_list. symmetry. apply size_dom.
  - apply NoDup_fmap_2; [intros a a' [= ->]; reflexivity|].
    rewrite Hperm. apply NoDup_fst_map_to_list.
  - intros [a]. cbn [ToAddress]. rewrite elem_of_dom, Hperm. split.
    + intros Hin. apply list_elem_of_fmap in Hin as (a' & [= <-] & Hin).
      apply list_elem_of_fmap in Hin as ([a' r] & -> & Hin).
      apply elem_of_map_to_list in Hin. eauto.
    + intros [r Hr]. apply list_elem_of_fmap. exists a. split; [reflexivity|].
      apply list_elem_of_fmap. exists (a, r). split; [reflexivity|].
      now apply elem_of_map_to_list.
Qed.

Lemma List_spec_witness :
  length (ListVaults sample_index 1%N) = 2
  /\ NoDup (ListVaultsAddresses sample_index 1%N)
  /\ (forall address : common_Address,
        address ∈ ListVaultsAddresses sample_index 1%N
        <-> ToAddress address ∈ dom (chain_of sample_index 1%N)).
Proof.
  apply (List_spec sample_index 1%N (map_to_list (chain_of sample_index 1%N))).
  unfold range_of. reflexivity.
Defined.

(** ** More on the naming normaliser *)

Section NamingMore.
Context {TStrategy : Type}.
Implicit Types (t : TVault.t TStrategy) (m : string).

Lemma BuildSymbol_FormatedSymbol_starts m t :
  starts_with (TVault.FormatedSymbol (BuildSymbol m t)) "yv".
Proof.
  rewrite BuildSymbol_FormatedSymbol. cbv zeta.
  destruct (_ && _); [now eexists|].
  destruct (negb _) eqn:E; [now eexists|].
  now apply negb_false_iff, strings_HasPrefix_spec in E.
Qed.

Lemma BuildSymbol_FormatedSymbol_nonempty m t :
  TVault.FormatedSymbol (BuildSymbol m t) <> EmptyString.
Proof.
  destruct (BuildSymbol_FormatedSymbol_starts m t) as [back ->]. discriminate.
Qed.

Lemma BuildNames_nonempty_name m t :
  TVault.Name (BuildNames m t) <> EmptyString.
Proof.
  pose proof (BuildNames_FormatedName_nonempty m t) as HF.
  rewrite BuildNames_Name. cbv zeta.
  destruct (String.eqb_spec (strip (TVault.Name t)) EmptyString) as [Hn|Hn].
  - destruct (String.eqb_spec (TVault.DisplayName (BuildNames m t)) EmptyString);
      assumption.
  - norm_empty. exact Hn.
Qed.

(** X1: whatever the record and the override, [BuildNames] leaves neither
    the name nor the formatted name empty. *)
Theorem BuildNames_nonempty m t :
  TVault.Name (BuildNames m t) <> EmptyString
  /\ TVault.FormatedName (BuildNames m t) <> EmptyString.
Proof.
  split;
    [apply BuildNames_nonempty_name | apply BuildNames_FormatedName_nonempty].
Qed.

(** X2: whatever the record and the override, [BuildSymbol] leaves none of
    the symbol, the display symbol and the formatted symbol empty. *)
Theorem BuildSymbol_nonempty m t :
  TVault.Symbol (BuildSymbol m t) <> EmptyString
  /\ TVault.DisplaySymbol (BuildSymbol m t) <> EmptyString
  /\ TVault.FormatedSymbol (BuildSymbol m t) <> EmptyString.
Proof.
  pose proof (BuildSymbol_FormatedSymbol_nonempty m t) as HF.
  assert (TVault.Symbol (BuildSymbol m t) <> EmptyString) as HS.
  { rewrite BuildSymbol_Symbol. unfold helpers_SafeString, nonempty.
    destruct (String.eqb_spec (strip (TVault.Symbol t)) EmptyString) as [Hs|Hs];
      norm_empty;
      [destruct (String.eqb_spec m EmptyString) as [->|Hm]; norm_empty|];
      assumption. }
  repeat split; [exact HS| |exact HF].
  rewrite BuildSymbol_DisplaySymbol. unfold helpers_SafeString, nonempty.
  destruct (String.eqb_spec m EmptyString) as [->|Hm]; norm_empty; assumption.
Qed.

(** The formatted name built from the token alone. *)
Lemma token_formated_name (T : string) :
  let F :=
    if negb (strings_HasSuffix T "yVault") then T +:+ " yVault" else T in
  (ends_with T "yVault" -> F = T)
  /\ (~ ends_with T "yVault" -> F = T +:+ " yVault").
Proof.
  cbv zeta. destruct (strings_HasSuffix T "yVault") eqn:E; simpl.
  - apply strings_HasSuffix_spec in E. split; [reflexivity | tauto].
  - split; [|reflexivity].
    intros H. apply strings_HasSuffix_spec in H. congruence.
Qed.

(** X3: a non-empty override that does not end in [yVault] alone decides
    the formatted name, override then [ yVault], whatever the token and the
    raw name; a non-empty override that already ends in [yVault] is not
    used at all: the formatted name is then the token's name, with
    [ yVault] appended unless it ends in [yVault] already. *)
Theorem BuildNames_FormatedName_override m t :
  m <> EmptyString ->
  (~ ends_with m "yVault" ->
   TVault.FormatedName (BuildNames m t) = m +:+ " yVault")
  /\ (ends_with m "yVault" ->
      (ends_with (TERC20Token.Name (TVault.Token t)) "yVault" ->
       TVault.FormatedName (BuildNames m t)
       = TERC20Token.Name (TVault.Token t))
      /\ (~ ends_with (TERC20Token.Name (TVault.Token t)) "yVault" ->
          TVault.FormatedName (BuildNames m t)
          = TERC20Token.Name (TVault.Token t) +:+ " yVault")).
Proof.
  intros Hm. rewrite BuildNames_FormatedName, BuildNames_DisplayName.
  apply nonempty_true in Hm. rewrite Hm. cbv zeta. rewrite Hm. simpl.
  destruct (strings_HasSuffix m "yVault") eqn:E; simpl.
  - apply strings_HasSuffix_spec in E. split; [tauto|]. intros _.
    apply token_formated_name.
  - split; [reflexivity|].
    intros H. apply strings_HasSuffix_spec in H. congruence.
Qed.

(** The formatted symbol built from the token alone. *)
Lemma token_formated_symbol (T : string) :
  let F := if negb (strings_HasPrefix T "yv") then "yv" +:+ T else T in
  (starts_with T "yv" -> F = T) /\ (~ starts_with T "yv" -> F = "yv" +:+ T).
Proof.
  cbv zeta. destruct (strings_HasPrefix T "yv") eqn:E; simpl.
  - apply strings_HasPrefix_spec in E. split; [reflexivity | tauto].
  - split; [|reflexivity].
    intros H. apply strings_HasPrefix_spec in H. congruence.
Qed.

(** X4: a non-empty override that does not start with [yv] alone decides
    the formatted symbol, [yv] then the override, whatever the token; an
    override that is empty or already starts with [yv] is not used: the
    formatted symbol is then the token's symbol, behind [yv] unless it
    starts with [yv] already. *)
Theorem BuildSymbol_FormatedSymbol_override m t :
  (m <> EmptyString -> ~ starts_with m "yv" ->
   TVault.FormatedSymbol (BuildSymbol m t) = "yv" +:+ m)
  /\ (m = EmptyString \/ starts_with m "yv" ->
      (starts_with (TERC20Token.Symbol (TVault.Token t)) "yv" ->
       TVault.FormatedSymbol (BuildSymbol m t)
       = TERC20Token.Symbol (TVault.Token t))
      /\ (~ starts_with (TERC20Token.Symbol (TVault.Token t)) "yv" ->
          TVault.FormatedSymbol (BuildSymbol m t)
          = "yv" +:+ TERC20Token.Symbol (TVault.Token t))).
Proof.
  rewrite BuildSymbol_FormatedSymbol. cbv zeta. split.
  - intros Hm Hpre. apply nonempty_true in Hm. rewrite Hm.
    destruct (strings_HasPrefix m "yv") eqn:E; simpl; [|reflexivity].
    apply strings_HasPrefix_spec in E. tauto.
  - intros Hm.
    assert (nonempty m && negb (strings_HasPrefix m "yv") = false) as ->.
    { destruct Hm as [->|Hpre]; [reflexivity|].
      apply strings_HasPrefix_spec in Hpre. rewrite Hpre.
      apply andb_false_r. }
    apply token_formated_symbol.
Qed.

(** The name after one more [BuildNames]: the raw name without its quotes
    whenever something is left of it, whatever the override. *)
Lemma BuildNames_Name_raw m t :
  strip (TVault.Name t) <> EmptyString ->
  TVault.Name (BuildNames m t) = strip (TVault.Name t).
Proof. intros Hn. rewrite BuildNames_Name. cbv zeta. now norm_empty. Qed.

Lemma BuildSymbol_Symbol_raw m t :
  strip (TVault.Symbol t) <> EmptyString ->
  TVault.Symbol (BuildSymbol m t) = strip (TVault.Symbol t).
Proof.
  intros Hs. rewrite BuildSymbol_Symbol.
  unfold helpers_SafeString, nonempty. now norm_empty.
Qed.

(** X5: once the name of a record has a character besides quotes, no later
    override reaches it: after any non-empty sequence of [BuildNames], with
    any overrides, the name is the first name without its quotes.  (The
    name [BuildNames] wrote for a record without a usable raw name, be it an
    override or a token-derived name, is thus kept by every later call.) *)
Theorem BuildNames_all_Name (overrides : list string) t :
  strip (TVault.Name t) <> EmptyString ->
  overrides <> [] ->
  TVault.Name (BuildNames_all overrides t) = strip (TVault.Name t).
Proof.
  intros Hn Hne.
  destruct overrides as [|m overrides]; [congruence|clear Hne].
  revert m t Hn. induction overrides as [|m' overrides IH]; intros m t Hn.
  - now apply BuildNames_Name_raw.
  - change (BuildNames_all (m :: m' :: overrides) t)
      with (BuildNames_all (m' :: overrides) (BuildNames m t)).
    rewrite IH; rewrite (BuildNames_Name_raw m t Hn);
      rewrite strip_no_quote; auto.
Qed.

(** X6: once the symbol of a record has a character besides quotes, no
    later override reaches it: after any non-empty sequence of
    [BuildSymbol], with any overrides, the symbol is the first symbol
    without its quotes. *)
Theorem BuildSymbol_all_Symbol (overrides : list string) t :
  strip (TVault.Symbol t) <> EmptyString ->
  overrides <> [] ->
  TVault.Symbol (BuildSymbol_all overrides t) = strip (TVault.Symbol t).
Proof.
  intros Hs Hne.
  destruct overrides as [|m overrides]; [congruence|clear Hne].
  revert m t Hs. induction overrides as [|m' overrides IH]; intros m t Hs.
  - now apply BuildSymbol_Symbol_raw.
  - change (BuildSymbol_all (m :: m' :: overrides) t)
      with (BuildSymbol_all (m' :: overrides) (BuildSymbol m t)).
    rewrite IH; rewrite (BuildSymbol_Symbol_raw m t Hs);
      rewrite strip_no_quote; auto.
Qed.

(** With an override, a record that went through [BuildNames] once is
    rebuilt unchanged from then on. *)
Lemma BuildNames_settled_override m t :
  m <> EmptyString ->
  BuildNames m (BuildNames m (BuildNames m t)) = BuildNames m (BuildNames m t).
Proof.
  intros Hm. apply BuildNames_twice. left. split; [exact Hm|].
  rewrite BuildNames_Name, BuildNames_DisplayName. cbv zeta.
  unfold only_quotes, nonempty.
  destruct (String.eqb_spec (strip (TVault.Name t)) EmptyString) as [Hn|Hn];
    norm_empty.
  - destruct (String.eqb_spec (strip m) EmptyString); auto.
  - left. exact Hn.
Qed.

(** Without override, a record with a non-empty name is rebuilt unchanged
    after one [BuildNames]. *)
Lemma BuildNames_settled_named t :
  TVault.Name t <> EmptyString ->
  BuildNames EmptyString (BuildNames EmptyString (BuildNames EmptyString t))
  = BuildNames EmptyString (BuildNames EmptyString t).
Proof.
  intros HN. apply BuildNames_twice. right. split; [reflexivity|].
  rewrite BuildNames_Name, BuildNames_DisplayName. cbv zeta.
  unfold only_quotes, quote_free.
  destruct (String.eqb_spec (strip (TVault.Name t)) EmptyString) as [Hn|Hn];
    norm_empty; auto.
Qed.

(** X7: repeated [BuildNames] with one override comes to rest: the fourth
    application changes nothing any more, and with a non-empty override,
    or on a record whose raw name is not empty, the third changes nothing
    already. *)
Theorem BuildNames_settles m t :
  BuildNames m (BuildNames m (BuildNames m (BuildNames m t)))
  = BuildNames m (BuildNames m (BuildNames m t))
  /\ (m <> EmptyString \/ TVault.Name t <> EmptyString ->
      BuildNames m (BuildNames m (BuildNames m t))
      = BuildNames m (BuildNames m t)).
Proof.
  split.
  - destruct (String.eqb_spec m EmptyString) as [->|Hm].
    + apply BuildNames_settled_named, BuildNames_nonempty_name.
    + now apply BuildNames_settled_override.
  - destruct (String.eqb_spec m EmptyString) as [->|Hm].
    + intros [[]|HN]; [reflexivity|]. now apply BuildNames_settled_named.
    + intros _. now apply BuildNames_settled_override.
Qed.

(** X8: repeated [BuildSymbol] with one override comes to rest after two
    applications: the third changes nothing any more. *)
Theorem BuildSymbol_settles m t :
  BuildSymbol m (BuildSymbol m (BuildSymbol m t))
  = BuildSymbol m (BuildSymbol m t).
Proof.
  apply BuildSymbol_twice.
  rewrite BuildSymbol_Symbol, BuildSymbol_FormatedSymbol.
  change (TVault.Token (BuildSymbol m t)) with (TVault.Token t).
  pose proof (formated_symbol_strip (TERC20Token.Symbol (TVault.Token t)))
    as [HF _]. revert HF. cbv zeta.
  unfold helpers_SafeString, nonempty, only_quotes.
  destruct (String.eqb_spec (strip (TVault.Symbol t)) EmptyString) as [Hs|Hs];
    [destruct (String.eqb_spec m EmptyString) as [->|Hm]|]; norm_empty.
  - intros HF. left. exact HF.
  - intros _. destruct (String.eqb_spec (strip m) EmptyString); auto.
  - intros _. left. exact Hs.
Qed.

(** X9: [BuildNames] writes the three name fields and nothing else, and
    [BuildSymbol] the three symbol fields and nothing else. *)
Theorem naming_frame (metaVaultName metaVaultSymbol : string) t :
  let tn := BuildNames metaVaultName t in
  let ts := BuildSymbol metaVaultSymbol t in
  (TVault.Address tn = TVault.Address t
   /\ TVault.Registry tn = TVault.Registry t
   /\ TVault.Symbol tn = TVault.Symbol t
   /\ TVault.DisplaySymbol tn = TVault.DisplaySymbol t
   /\ TVault.FormatedSymbol tn = TVault.FormatedSymbol t
   /\ TVault.Icon tn = TVault.Icon t
   /\ TVault.Version tn = TVault.Version t
   /\ TVault.Type_ tn = TVault.Type_ t
   /\ TVault.Inception tn = TVault.Inception t
   /\ TVault.Decimals tn = TVault.Decimals t
   /\ TVault.Endorsed tn = TVault.Endorsed t
   /\ TVault.Emergency_shutdown tn = TVault.Emergency_shutdown t
   /\ TVault.PricePerShare tn = TVault.PricePerShare t
   /\ TVault.Token tn = TVault.Token t
   /\ TVault.TVL tn = TVault.TVL t
   /\ TVault.APY tn = TVault.APY t
   /\ TVault.Strategies tn = TVault.Strategies t
   /\ TVault.Migration tn = TVault.Migration t
   /\ TVault.Details tn = TVault.Details t)
  /\ (TVault.Address ts = TVault.Address t
      /\ TVault.Registry ts = TVault.Registry t
      /\ TVault.Name ts = TVault.Name t
      /\ TVault.DisplayName ts = TVault.DisplayName t
      /\ TVault.FormatedName ts = TVault.FormatedName t
      /\ TVault.Icon ts = TVault.Icon t
      /\ TVault.Version ts = TVault.Version t
      /\ TVault.Type_ ts = TVault.Type_ t
      /\ TVault.Inception ts = TVault.Inception t
      /\ TVault.Decimals ts = TVault.Decimals t
      /\ TVault.Endorsed ts = TVault.Endorsed t
      /\ TVault.Emergency_shutdown ts = TVault.Emergency_shutdown t
      /\ TVault.PricePerShare ts = TVault.PricePerShare t
      /\ TVault.Token ts = TVault.Token t
      /\ TVault.TVL ts = TVault.TVL t
      /\ TVault.APY ts = TVault.APY t
      /\ TVault.Strategies ts = TVault.Strategies t
      /\ TVault.Migration ts = TVault.Migration t
      /\ TVault.Details ts = TVault.Details t).
Proof. cbv zeta. repeat split. Qed.

End NamingMore.

Lemma not_ends_with (s suffix : string) :
  strings_HasSuffix s suffix = false -> ~ ends_with s suffix.
Proof. intros E H. apply strings_HasSuffix_spec in H. congruence. Qed.

Lemma not_starts_with (s prefix : string) :
  strings_HasPrefix s prefix = false -> ~ starts_with s prefix.
Proof. intros E H. apply strings_HasPrefix_spec in H. congruence. Qed.

Lemma BuildNames_FormatedName_override_witness :
  TVault.FormatedName (BuildNames "USDC" plain_vault) = "USDC yVault"
  /\ TVault.FormatedName (BuildNames "USDC yVault" plain_vault)
     = "USD Coin yVault".
Proof.
  split.
  - apply (BuildNames_FormatedName_override "USDC" plain_vault);
      [discriminate | now apply not_ends_with].
  - apply (BuildNames_FormatedName_override "USDC yVault" plain_vault);
      [discriminate | now exists "USDC " | now apply not_ends_with].
Defined.

Lemma BuildSymbol_FormatedSymbol_override_witness :
  TVault.FormatedSymbol (BuildSymbol "USDC" scenario_vault) = "yvUSDC"
  /\ TVault.FormatedSymbol (BuildSymbol "yvUSDC" scenario_vault) = "yvFOO".
Proof.
  split.
  - apply (BuildSymbol_FormatedSymbol_override "USDC" scenario_vault);
      [discriminate | now apply not_starts_with].
  - apply (BuildSymbol_FormatedSymbol_override "yvUSDC" scenario_vault);
      [right; now exists "USDC" | now apply not_starts_with].
Defined.

Lemma BuildNames_all_Name_witness :
  TVault.Name
    (BuildNames_all ["Curated"; EmptyString; "Other"] scenario_vault)
  = "My Vault".
Proof.
  apply (BuildNames_all_Name ["Curated"; EmptyString; "Other"] scenario_vault);
    discriminate.
Defined.

Lemma BuildSymbol_all_Symbol_witness :
  TVault.Symbol
    (BuildSymbol_all ["USDC"; EmptyString; "DAI"] scenario_vault)
  = "yvFOO".
Proof.
  apply (BuildSymbol_all_Symbol ["USDC"; EmptyString; "DAI"] scenario_vault);
    discriminate.
Defined.

Lemma BuildNames_settles_witness :
  BuildNames EmptyString
    (BuildNames EmptyString (BuildNames EmptyString scenario_vault))
  = BuildNames EmptyString (BuildNames EmptyString scenario_vault).
Proof.
  apply (BuildNames_settles EmptyString scenario_vault).
  right. discriminate.
Defined.

(** The bounds of [BuildNames_settles] are reached: without raw name and
    without override, a quote in the token's name makes the third
    application differ from the second. *)
Example BuildNames_settles_late :
  BuildNames EmptyString
    (BuildNames EmptyString (BuildNames EmptyString unnamed_vault))
  <> BuildNames EmptyString (BuildNames EmptyString unnamed_vault).
Proof. intros H. vm_compute in H. discriminate H. Qed.

(** ** How the four operations compose *)

(** X10: the four operations on a record commute with one another: the
    two normalisers and the two merges can run in any order. *)
Theorem build_commute {TStrategy : Type}
    (VaultsFromMeta : gmap uint64 (gmap common_Address TVaultFromMeta.t))
    (AggregatedVault : gmap uint64 (gmap common_Address TAggregatedVault.t))
    (chainID chainID' : uint64) (metaVaultName metaVaultSymbol : string)
    (t : TVault.t TStrategy) :
  BuildNames metaVaultName (BuildSymbol metaVaultSymbol t)
  = BuildSymbol metaVaultSymbol (BuildNames metaVaultName t)
  /\ BuildNames metaVaultName (BuildMigration VaultsFromMeta chainID t)
     = BuildMigration VaultsFromMeta chainID (BuildNames metaVaultName t)
  /\ BuildNames metaVaultName (BuildAPY AggregatedVault chainID t)
     = BuildAPY AggregatedVault chainID (BuildNames metaVaultName t)
  /\ BuildSymbol metaVaultSymbol (BuildMigration VaultsFromMeta chainID t)
     = BuildMigration VaultsFromMeta chainID (BuildSymbol metaVaultSymbol t)
  /\ BuildSymbol metaVaultSymbol (BuildAPY AggregatedVault chainID t)
     = BuildAPY AggregatedVault chainID (BuildSymbol metaVaultSymbol t)
  /\ BuildMigration VaultsFromMeta chainID
       (BuildAPY AggregatedVault chainID' t)
     = BuildAPY AggregatedVault chainID'
         (BuildMigration VaultsFromMeta chainID t).
Proof. repeat split. Qed.

(** X11: a merge discards what an earlier merge wrote: merging again, from
    any store and for any chain, gives what merging once from that store
    would have given; in particular each merge is idempotent. *)
Theorem merge_overwrites {TStrategy : Type}
    (VaultsFromMeta VaultsFromMeta'
       : gmap uint64 (gmap common_Address TVaultFromMeta.t))
    (AggregatedVault AggregatedVault'
       : gmap uint64 (gmap common_Address TAggregatedVault.t))
    (chainID chainID' : uint64) (t : TVault.t TStrategy) :
  BuildMigration VaultsFromMeta' chainID'
    (BuildMigration VaultsFromMeta chainID t)
  = BuildMigration VaultsFromMeta' chainID' t
  /\ BuildAPY AggregatedVault' chainID' (BuildAPY AggregatedVault chainID t)
     = BuildAPY AggregatedVault' chainID' t
  /\ BuildMigration VaultsFromMeta chainID
       (BuildMigration VaultsFromMeta chainID t)
     = BuildMigration VaultsFromMeta chainID t
  /\ BuildAPY AggregatedVault chainID (BuildAPY AggregatedVault chainID t)
     = BuildAPY AggregatedVault chainID t.
Proof. repeat split. Qed.

(** ** More on the enrichment merger *)

(** X12: after [BuildMigration] the record is marked as migrating exactly
    when the store has an entry for it that is; its migration address is
    then the entry's target, and otherwise it is the zero address (no
    entry) or the record's own address (an entry without migration), never
    the target. *)
Theorem BuildMigration_Available {TStrategy : Type}
    (VaultsFromMeta : gmap uint64 (gmap common_Address TVaultFromMeta.t))
    (chainID : uint64) (t : TVault.t TStrategy) :
  let migration := TVault.Migration (BuildMigration VaultsFromMeta chainID t) in
  let found :=
    chain_of VaultsFromMeta chainID !! FromAddress (TVault.Address t) in
  (TMigration.Available migration = true <->
   exists entry,
     found = Some entry
     /\ TVaultFromMeta.MigrationAvailable entry = true
     /\ TMigration.Address migration
        = TVaultFromMeta.MigrationTargetVault entry)
  /\ (TMigration.Available migration = false <->
      (found = None /\ TMigration.Address migration = zero_Address)
      \/ (exists entry,
            found = Some entry
            /\ TVaultFromMeta.MigrationAvailable entry = false
            /\ TMigration.Address migration
               = FromAddress (TVault.Address t))).
Proof.
  cbv zeta. unfold BuildMigration. cbn [set_Migration TVault.Migration].
  destruct (chain_of VaultsFromMeta chainID !! FromAddress (TVault.Address t))
    as [[available target]|]; cbn.
  - destruct available; split; split.
    + intros _. eexists. repeat split.
    + reflexivity.
    + discriminate.
    + intros [[[=] _]|(entry & [= <-] & [=] & _)].
    + discriminate.
    + intros (entry & [= <-] & [=] & _).
    + intros _. right. eexists. repeat split.
    + reflexivity.
  - split; split.
    + discriminate.
    + intros (entry & [=] & _).
    + intros _. left. split; reflexivity.
    + reflexivity.
Qed.

(** X13: the APY snapshot written by [BuildAPY] is all-zero exactly when
    the analytics store has no entry for the record or has one whose legacy
    APY is itself all-zero: the snapshot does not tell the two apart. *)
Theorem BuildAPY_zero {TStrategy : Type}
    (AggregatedVault : gmap uint64 (gmap common_Address TAggregatedVault.t))
    (chainID : uint64) (t : TVault.t TStrategy) :
  TVault.APY (BuildAPY AggregatedVault chainID t) = TAPY.zero <->
  chain_of AggregatedVault chainID !! FromAddress (TVault.Address t) = None
  \/ exists entry,
       chain_of AggregatedVault chainID !! FromAddress (TVault.Address t)
       = Some entry
       /\ TAggregatedVault.LegacyAPY entry = TAPY.zero.
Proof.
  unfold BuildAPY. cbv zeta. cbn [set_APY TVault.APY].
  destruct (chain_of AggregatedVault chainID !! FromAddress (TVault.Address t))
    as [[[ty gross net [] [] []]]|]; cbn.
  - split.
    + intros H. right. eexists. split; [reflexivity|exact H].
    + intros [[=]|(entry & [= <-] & H)]. exact H.
  - split; [auto | reflexivity].
Qed.

(** ** More on the per-chain index *)

Lemma elem_of_range {K V : Type} `{Countable K}
    (m : gmap K V) (visited : list (K * V)) (k : K) (v : V) :
  range_of m visited -> ((k, v) ∈ visited <-> m !! k = Some v).
Proof.
  unfold range_of. intros ->. apply elem_of_map_to_list.
Qed.

(** X14: the three accessors agree, whatever the order of the listing:
    [FindVault] finds an address exactly when [ListVaultsAddresses] lists
    it, and [ListVaults] lists a reference exactly when [FindVault] returns
    it for some address. *)
Theorem List_Find_agree (_vaultMap : vaultMap) (chainID : uint64)
    (visited : list (ethcommon_Address * ref)) :
  range_of (chain_of _vaultMap chainID) visited ->
  (forall address : common_Address,
     address ∈ ListVaultsAddresses_loop visited
     <-> snd (FindVault _vaultMap chainID address) = true)
  /\ (forall vault : ref,
        vault ∈ ListVaults_loop visited
        <-> exists address,
              FindVault _vaultMap chainID address = (vault, true)).
Proof.
  intros Hrange.
  rewrite ListVaults_loop_map, ListVaultsAddresses_loop_map. split.
  - intros [a]. unfold FindVault. cbn [ToAddress]. split.
    + intros Hin. apply list_elem_of_fmap in Hin as (a' & [= <-] & Hin).
      apply list_elem_of_fmap in Hin as ([a' r] & -> & Hin).
      apply (elem_of_range _ _ _ _ Hrange) in Hin. cbn [fst].
      now rewrite Hin.
    + destruct (chain_of _vaultMap chainID !! a) as [r|] eqn:E;
        [intros _|discriminate].
      apply list_elem_of_fmap. exists a. split; [reflexivity|].
      apply list_elem_of_fmap. exists (a, r). split; [reflexivity|].
      now apply (elem_of_range _ _ _ _ Hrange).
  - intros vault. unfold FindVault. split.
    + intros Hin. apply list_elem_of_fmap in Hin as ([a r] & -> & Hin).
      apply (elem_of_range _ _ _ _ Hrange) in Hin.
      exists (FromAddress a). cbn [ToAddress snd]. now rewrite Hin.
    + intros [[a] Hfind]. cbn [ToAddress] in Hfind.
      destruct (chain_of _vaultMap chainID !! a) as [r|] eqn:E;
        [|discriminate].
      injection Hfind as ->.
      apply list_elem_of_fmap. exists (a, vault). split; [reflexivity|].
      now apply (elem_of_range _ _ _ _ Hrange).
Qed.

Lemma List_Find_agree_witness :
  (forall address : common_Address,
     address ∈ ListVaultsAddresses sample_index 1%N
     <-> snd (FindVault sample_index 1%N address) = true)
  /\ (forall vault : ref,
        vault ∈ ListVaults sample_index 1%N
        <-> exists address,
              FindVault sample_index 1%N address = (vault, true)).
Proof.
  apply (List_Find_agree sample_index 1%N
           (map_to_list (chain_of sample_index 1%N))).
  unfold range_of. reflexivity.
Defined.

(** X15: a chain the index knows nothing of, or for which it holds an empty
    map, lists no vault and no address and finds none, without failing. *)
Theorem unknown_chain (_vaultMap : vaultMap) (chainID : uint64)
    (visited : list (ethcommon_Address * ref)) :
  _vaultMap !! chainID = None \/ _vaultMap !! chainID = Some ∅ ->
  range_of (chain_of _vaultMap chainID) visited ->
  ListVaults_loop visited = []
  /\ ListVaultsAddresses_loop visited = []
  /\ ListVaults _vaultMap chainID = []
  /\ ListVaultsAddresses _vaultMap chainID = []
  /\ forall vaultAddress,
       FindVault _vaultMap chainID vaultAddress = (nil_ref, false).
Proof.
  intros Hchain Hrange.
  assert (chain_of _vaultMap chainID = ∅) as Hempty
    by (unfold chain_of; destruct Hchain as [-> | ->]; reflexivity).
  unfold ListVaults, ListVaultsAddresses, FindVault, range_of in *.
  rewrite Hempty in *. rewrite map_to_list_empty in *.
  apply Permutation_nil_r in Hrange as ->.
  repeat split.
Qed.

Lemma unknown_chain_witness :
  ListVaults_loop [] = []
  /\ ListVaultsAddresses_loop [] = []
  /\ ListVaults sample_index 7%N = []
  /\ ListVaultsAddresses sample_index 7%N = []
  /\ forall vaultAddress,
       FindVault sample_index 7%N vaultAddress = (nil_ref, false).
Proof.
  apply (unknown_chain sample_index 7%N []).
  - left. vm_compute. reflexivity.
  - unfold range_of. vm_compute. constructor.
Defined.

(** X16: two listings made in the same order line up: they have the same
    length, and the reference at a position of [ListVaults] is the one
    [FindVault] returns for the address at that position of
    [ListVaultsAddresses]. *)
Theorem List_aligned (_vaultMap : vaultMap) (chainID : uint64)
    (visited : list (ethcommon_Address * ref)) :
  range_of (chain_of _vaultMap chainID) visited ->
  length (ListVaults_loop visited) = length (ListVaultsAddresses_loop visited)
  /\ forall (i : nat) (address : common_Address),
       ListVaultsAddresses_loop visited !! i = Some address ->
       exists vault,
         ListVaults_loop visited !! i = Some vault
         /\ FindVault _vaultMap chainID address = (vault, true).
Proof.
  intros Hrange.
  rewrite ListVaults_loop_map, ListVaultsAddresses_loop_map. split.
  - now rewrite !length_fmap.
  - intros i address Hi. rewrite !list_lookup_fmap in Hi.
    rewrite list_lookup_fmap.
    destruct (visited !! i) as [[a r]|] eqn:E; [|discriminate].
    injection Hi as <-. exists r. split; [reflexivity|].
    apply list_elem_of_lookup_2 in E.
    apply (elem_of_range _ _ _ _ Hrange) in E.
    unfold FindVault. cbn [ToAddress fst]. now rewrite E.
Qed.

Lemma List_aligned_witness :
  length (ListVaults sample_index 1%N)
  = length (ListVaultsAddresses sample_index 1%N)
  /\ forall (i : nat) (address : common_Address),
       ListVaultsAddresses sample_index 1%N !! i = Some address ->
       exists vault,
         ListVaults sample_index 1%N !! i = Some vault
         /\ FindVault sample_index 1%N address = (vault, true).
Proof.
  apply (List_aligned sample_index 1%N
           (map_to_list (chain_of sample_index 1%N))).
  unfold range_of. reflexivity.
Defined.
